(** * boost/utility/select_by_size.hpp

    A shallow embedding of the header [select_by_size.hpp] and the
    properties of its tag family [case_<N>], its size-to-index resolver
    [select_by_size<Size>] and its specialization generator.

    The header lives in two phases, and so does the embedding:
    - preprocessing: the include guard, the watermark macro
      [SELECT_BY_SIZE_MAX_SPECIALIZED] (a macro: what it holds is its
      replacement list, a number or a token), the request macro
      [BOOST_SELECT_BY_SIZE_MAX_CASE] and the file iteration decide which
      [SELECT_BY_SIZE_SPEC(n)] invocations reach the compiler
      ([pp_state], [include_header]);
    - compilation: every [SELECT_BY_SIZE_SPEC(n)] declares a constant in
      namespace [detail] and an explicit specialization of
      [select_by_size]; a name declared twice or a size specialized twice
      is a diagnostic ([SELECT_BY_SIZE_SPEC], [compile]). *)

From Stdlib Require Import ZArith Lia String List.
From stdpp Require Import base option list numbers gmap strings.

Local Open Scope Z_scope.

(** ** Integers of the target

    [int] and [unsigned] are 32 bits wide; converting to them wraps. *)

Definition to_unsigned (z : Z) : Z := z mod 2 ^ 32.

Definition to_int (z : Z) : Z := (z + 2 ^ 31) mod 2 ^ 32 - 2 ^ 31.

(** ** Object types and [sizeof]

    The only types the header builds are [char] and structs of members.
    [layout] is the usual layout of a struct: members in declaration
    order, each at the next offset that is a multiple of its alignment,
    the whole rounded up to the strictest member alignment; a complete
    object is never empty. [sizeof(char)] is 1 by definition. *)

#[warnings="-register-all"] Inductive ctype : Type :=
  | TChar
  | TStruct (members : list ctype).

Definition align_up (off a : Z) : Z := (off + a - 1) / a * a.

Fixpoint layout (t : ctype) : Z * Z :=
  match t with
  | TChar => (1, 1)
  | TStruct ms =>
      let fix place (ms : list ctype) (off al : Z) : Z * Z :=
        match ms with
        | [] => (off, al)
        | m :: rest =>
            let '(sz, a) := layout m in
            place rest (align_up off a + sz) (Z.max al a)
        end in
      let '(off, al) := place ms 0 1 in
      (Z.max 1 (align_up off al), al)
  end.

Definition sizeof (t : ctype) : Z := fst (layout t).
Definition alignof (t : ctype) : Z := snd (layout t).

(** ** Definition of [case_]

<<
    template<int N> struct case_ { char c1; case_<N - 1> c2; };
    template<> struct case_<-1> { char c; };
>>
    Instantiating [case_<N>] instantiates [case_<N - 1>] first, down to
    the explicit specialization at [-1]. [depth] bounds the chain of
    instantiations; [None] is an instantiation that does not complete. *)

Fixpoint instantiate_case (depth : nat) (N : Z) : option ctype :=
  match depth with
  | O => None
  | S d =>
      if decide (N = -1) then Some (TStruct [TChar])
      else c2 ← instantiate_case d (N - 1); Some (TStruct [TChar; c2])
  end.

(** [case_<N>], with as much depth as the chain from [N] down to [-1]
    needs. Below [-1] the chain never meets the base case
    ([instantiate_below_base]). *)
Definition case_ (N : Z) : option ctype :=
  instantiate_case (Z.to_nat (N + 2)) N.

(** [typedef case_<true> yes_type; typedef case_<false> no_type;] *)
Definition yes_type : option ctype := case_ (Z.b2z true).
Definition no_type : option ctype := case_ (Z.b2z false).

(** [sizeof(case_<N>)] *)
Definition sizeof_case (N : Z) : option Z := sizeof <$> case_ N.

(** ** Compilation: [SELECT_BY_SIZE_SPEC]

    What the compiler has seen of namespace [boost::utility]: the
    constants [detail::sizeof_case_n], keyed by [n], and the explicit
    specializations of [select_by_size], keyed by their [unsigned]
    template argument. *)

(** A static constant of a class: the type it was declared with, its name
    and its value. *)
Record static_constant : Type := {
  c_type : string;
  c_name : string;
  c_value : Z
}.

(** Modelled from the spec: [BOOST_STATIC_CONSTANT] comes from
    boost/config.hpp, which is not part of this repository's sources.
    [BOOST_STATIC_CONSTANT(type, name = v)] "declares a compile-time
    integer constant under that name", of that type and with value [v]. *)
Definition BOOST_STATIC_CONSTANT (type name : string) (v : Z) : static_constant :=
  {| c_type := type; c_name := name; c_value := v |}.

(** The body of a specialization of [select_by_size]: the nested
    [type::value] and the direct [value]. *)
Record specialization : Type := {
  type_value : static_constant;
  value : static_constant
}.

Record namespace : Type := {
  detail : gmap Z Z;
  specializations : gmap Z specialization
}.

Definition empty_namespace : namespace :=
  {| detail := ∅; specializations := ∅ |}.

Inductive diagnostic : Type :=
  | incomplete_type (N : Z)
  | redefinition (n : Z)
  | duplicate_specialization (Size : Z).

Inductive result (A : Type) : Type :=
  | Ok (a : A)
  | Error (d : diagnostic).
Arguments Ok {A} a.
Arguments Error {A} d.

#[global] Instance result_ret : MRet result := fun A a => Ok a.

#[global] Instance result_bind : MBind result := fun A B k r =>
  match r with
  | Ok a => k a
  | Error d => Error d
  end.

(** The specialization [SELECT_BY_SIZE_SPEC(n)] defines.
<<
          struct type { BOOST_STATIC_CONSTANT(int, value = n - 1); };
          BOOST_STATIC_CONSTANT(int, value = type::value);
>> *)
Definition specialization_body (n : Z) : specialization :=
  let type_value := BOOST_STATIC_CONSTANT "int" "value" (n - 1) in
  {| type_value := type_value;
     value := BOOST_STATIC_CONSTANT "int" "value" (c_value type_value) |}.

(** <<
    #define SELECT_BY_SIZE_SPEC(n)
      namespace detail {
        static const int BOOST_PP_CAT(sizeof_case_, n) = sizeof(case_<n - 1>);
      }
      template<>
      struct select_by_size< detail::BOOST_PP_CAT(sizeof_case_, n) > {
          struct type { BOOST_STATIC_CONSTANT(int, value = n - 1); };
          BOOST_STATIC_CONSTANT(int, value = type::value);
      };
>> *)
Definition SELECT_BY_SIZE_SPEC (n : Z) (ns : namespace) : result namespace :=
  match sizeof_case (n - 1) with
  | None => Error (incomplete_type (n - 1))
  | Some sz =>
      match detail ns !! n with
      | Some _ => Error (redefinition n)
      | None =>
          let sizeof_case_n := to_int sz in
          let Size := to_unsigned sizeof_case_n in
          match specializations ns !! Size with
          | Some _ => Error (duplicate_specialization Size)
          | None =>
              Ok {| detail := <[n := sizeof_case_n]> (detail ns);
                    specializations :=
                      <[Size := specialization_body n]> (specializations ns) |}
          end
      end
  end.

(** The compiler meets the emitted invocations in order. *)
Fixpoint compile_from (ns : namespace) (out : list Z) : result namespace :=
  match out with
  | [] => Ok ns
  | n :: rest => ns' ← SELECT_BY_SIZE_SPEC n ns; compile_from ns' rest
  end.

Definition compile (out : list Z) : result namespace :=
  compile_from empty_namespace out.

(** [select_by_size<Size>]: declared for every [unsigned Size], defined
    only where an explicit specialization exists.
<<
    template<unsigned Size> struct select_by_size;
>> *)
Definition select_by_size (ns : namespace) (Size : Z) : option specialization :=
  specializations ns !! to_unsigned Size.

(** [select_by_size<Size>::value] and [select_by_size<Size>::type::value] *)
Definition select_by_size_value (ns : namespace) (Size : Z) : option Z :=
  s ← select_by_size ns Size; Some (c_value (value s)).

Definition select_by_size_type_value (ns : namespace) (Size : Z) : option Z :=
  s ← select_by_size ns Size; Some (c_value (type_value s)).

(** ** Preprocessing: the header, included any number of times

    A macro holds a replacement list, not a value: the list is expanded
    where the macro is used, with the macros defined there. The header
    gives [SELECT_BY_SIZE_MAX_SPECIALIZED] two replacement lists: the
    number 2,
<<
    #define SELECT_BY_SIZE_MAX_SPECIALIZED 2
>>
    and the identifier [BOOST_SELECT_BY_SIZE_MAX_CASE],
<<
    #define SELECT_BY_SIZE_MAX_SPECIALIZED BOOST_SELECT_BY_SIZE_MAX_CASE
>> *)

Inductive replacement : Type :=
  | Number (v : Z)
  | BOOST_SELECT_BY_SIZE_MAX_CASE_token.

(** What persists between two inclusions of the header: whether the
    include guard is defined, the replacement list of the watermark
    macro, and the [SELECT_BY_SIZE_SPEC(n)] invocations handed to the
    compiler so far (their arguments [n], in order).
    [BOOST_SELECT_BY_SIZE_MAX_CASE] does not persist: the header ends
    with its [#undef], so at every inclusion it is what the including
    file defined just before, or undefined. *)

Record pp_state : Type := {
  HPP_INCLUDED : bool;
  SELECT_BY_SIZE_MAX_SPECIALIZED : option replacement;
  output : list Z
}.

Definition initial : pp_state :=
  {| HPP_INCLUDED := false;
     SELECT_BY_SIZE_MAX_SPECIALIZED := None;
     output := [] |}.

(** In [#if], an identifier that is not a macro evaluates to 0. *)
Definition pp_value (macro : option Z) : Z := default 0 macro.

(** [SELECT_BY_SIZE_MAX_SPECIALIZED] as [#if] evaluates it at a place
    where [BOOST_SELECT_BY_SIZE_MAX_CASE] is [MAX_CASE]: a number stands
    for itself, the token is replaced by what [BOOST_SELECT_BY_SIZE_MAX_CASE]
    is there. *)
Definition expand (MAX_CASE : option Z) (macro : option replacement) : Z :=
  match macro with
  | None => 0
  | Some (Number v) => v
  | Some BOOST_SELECT_BY_SIZE_MAX_CASE_token => pp_value MAX_CASE
  end.

(** Modelled from the spec: [BOOST_PP_INC] comes from Boost.Preprocessor,
    which is not part of this repository's sources. The generator binds
    "that index's tag storage size" for iteration index [i] through
    [SELECT_BY_SIZE_SPEC(BOOST_PP_INC(i))], which "specializes
    select_by_size for sizeof(case<n-1>)": the increment by one. *)
Definition BOOST_PP_INC (x : Z) : Z := x + 1.

(** Modelled from the spec: [BOOST_PP_ITERATE] comes from
    Boost.Preprocessor, which is not part of this repository's sources.
    It is the "declarative range iteration" that drives the generator: the
    file is included once for every value of [BOOST_PP_ITERATION()] in
    the range of [BOOST_PP_ITERATION_LIMITS]. Both limits belong to the
    range: the header passes as lower limit "the lowest N for which
    select_by_size< sizeof(case_<N>) > has not been specialized" and as
    upper limit "the largest N such that case_<N> is needed". *)
Definition BOOST_PP_ITERATE (lower upper : Z) (pass : Z -> list Z) : list Z :=
  i ← seqZ lower (upper - lower + 1); pass i.

(** One pass of the iteration, [BOOST_PP_IS_ITERATING] set: the include
    guard is defined, so only the last branch of the file is live.
<<
    #else // #if !BOOST_PP_IS_ITERATING
        SELECT_BY_SIZE_SPEC(BOOST_PP_INC(BOOST_PP_ITERATION()))
    #endif
>> *)
Definition iterating (BOOST_PP_ITERATION : Z) : list Z :=
  [BOOST_PP_INC BOOST_PP_ITERATION].

(** Everything between [#ifndef BOOST_UTILITY_SELECT_BY_SIZE_HPP_INCLUDED]
    and its [#endif]: the watermark starts at 2 and the default
    specializations are emitted.
<<
    #define SELECT_BY_SIZE_MAX_SPECIALIZED 2
    SELECT_BY_SIZE_SPEC(0) // select_by_size< sizeof(case<-1>) >
    SELECT_BY_SIZE_SPEC(1) // select_by_size< sizeof(case<0>) >
    SELECT_BY_SIZE_SPEC(2) // select_by_size< sizeof(case<1>) >
>> *)
Definition guarded_part (st : pp_state) : pp_state :=
  if HPP_INCLUDED st then st
  else {| HPP_INCLUDED := true;
          SELECT_BY_SIZE_MAX_SPECIALIZED := Some (Number 2);
          output := output st ++ [0; 1; 2] |}.

(** <<
    #if !defined(BOOST_SELECT_BY_SIZE_MAX_CASE) || \
        (BOOST_SELECT_BY_SIZE_MAX_CASE < 2)
        #undef BOOST_SELECT_BY_SIZE_MAX_CASE
        #define BOOST_SELECT_BY_SIZE_MAX_CASE 2
    #endif
>> *)
Definition clamp_MAX_CASE (BOOST_SELECT_BY_SIZE_MAX_CASE : option Z) : Z :=
  match BOOST_SELECT_BY_SIZE_MAX_CASE with
  | None => 2
  | Some v => if decide (v < 2) then 2 else v
  end.

(** The part outside the include guard, [BOOST_PP_IS_ITERATING] not set,
    after the clamp: [BOOST_SELECT_BY_SIZE_MAX_CASE] is defined, as
    [MAX_CASE], in the condition and in the iteration limits; the new
    replacement list of the watermark is the token, not its value.
<<
    #if (BOOST_SELECT_BY_SIZE_MAX_CASE > SELECT_BY_SIZE_MAX_SPECIALIZED)
        #define BOOST_PP_FILENAME_1 <boost/utility/select_by_size.hpp>
        #define BOOST_PP_ITERATION_LIMITS ( SELECT_BY_SIZE_MAX_SPECIALIZED, \
                                            BOOST_SELECT_BY_SIZE_MAX_CASE )
        #include BOOST_PP_ITERATE()
        #undef SELECT_BY_SIZE_MAX_SPECIALIZED
        #define SELECT_BY_SIZE_MAX_SPECIALIZED BOOST_SELECT_BY_SIZE_MAX_CASE
    #endif
    #undef BOOST_SELECT_BY_SIZE_MAX_CASE
>> *)
Definition specializing_part
    (BOOST_SELECT_BY_SIZE_MAX_CASE : option Z) (st : pp_state) : pp_state :=
  let MAX_CASE := clamp_MAX_CASE BOOST_SELECT_BY_SIZE_MAX_CASE in
  let MAX_SPECIALIZED :=
    expand (Some MAX_CASE) (SELECT_BY_SIZE_MAX_SPECIALIZED st) in
  if decide (MAX_CASE > MAX_SPECIALIZED) then
    {| HPP_INCLUDED := HPP_INCLUDED st;
       SELECT_BY_SIZE_MAX_SPECIALIZED :=
         Some BOOST_SELECT_BY_SIZE_MAX_CASE_token;
       output :=
         output st ++ BOOST_PP_ITERATE MAX_SPECIALIZED MAX_CASE iterating |}
  else st.

(** [#include <boost/utility/select_by_size.hpp>] with
    [BOOST_SELECT_BY_SIZE_MAX_CASE] as the including file left it. *)
Definition include_header
    (BOOST_SELECT_BY_SIZE_MAX_CASE : option Z) (st : pp_state) : pp_state :=
  specializing_part BOOST_SELECT_BY_SIZE_MAX_CASE (guarded_part st).

(** A translation unit that includes the header once per element of
    [requests], with that element as [BOOST_SELECT_BY_SIZE_MAX_CASE]. *)
Definition preprocess (requests : list (option Z)) : pp_state :=
  foldl (fun st request => include_header request st) initial requests.

Definition build (requests : list (option Z)) : result namespace :=
  compile (output (preprocess requests)).

(** The watermark as [#if] reads it between two inclusions, where
    [BOOST_SELECT_BY_SIZE_MAX_CASE] is not defined. *)
Definition watermark (st : pp_state) : Z :=
  expand None (SELECT_BY_SIZE_MAX_SPECIALIZED st).

(** [case_<N>] has been handed a specialization: [SELECT_BY_SIZE_SPEC(N + 1)]
    is part of the output. *)
Definition generated (st : pp_state) (N : Z) : Prop := N + 1 ∈ output st.

#[global] Instance generated_dec (st : pp_state) (N : Z) :
  Decision (generated st N).
Proof. unfold generated. apply _. Defined.

(** The first request above 2 among the inclusions, if there is one. *)
Fixpoint first_extension (requests : list (option Z)) : option Z :=
  match requests with
  | [] => None
  | request :: rest =>
      if decide (2 < clamp_MAX_CASE request) then Some (clamp_MAX_CASE request)
      else first_extension rest
  end.

(** The highest index covered after these inclusions: the default
    specializations stop at [case_<1>]; the first request above 2 is the
    one the header extends to. *)
Definition covered_bound (requests : list (option Z)) : Z :=
  default 1 (first_extension requests).

(** The two states of an included header: the guarded part alone has
    run, or one extension, to [M], has. *)
Definition default_state : pp_state :=
  {| HPP_INCLUDED := true;
     SELECT_BY_SIZE_MAX_SPECIALIZED := Some (Number 2);
     output := [0; 1; 2] |}.

Definition extended_state (M : Z) : pp_state :=
  {| HPP_INCLUDED := true;
     SELECT_BY_SIZE_MAX_SPECIALIZED := Some BOOST_SELECT_BY_SIZE_MAX_CASE_token;
     output := [0; 1; 2] ++ seqZ 3 (M - 1) |}.

(** ** Definition of [BOOST_SELECT_BY_SIZE]

    A class scope is the list of its static constants. An expression
    enters [sizeof] with its static type only. *)

(** Modelled from the spec: [BOOST_PP_CAT] comes from Boost.Preprocessor,
    which is not part of this repository's sources; it pastes its two
    arguments into one identifier. *)
Definition BOOST_PP_CAT (a b : string) : string := a +:+ b.

(** <<
    #define BOOST_SELECT_BY_SIZE(type_, name, expr)
        BOOST_STATIC_CONSTANT(
            unsigned,
            BOOST_PP_CAT(boost_select_by_size_temp_, name) = sizeof(expr)
        );
        BOOST_STATIC_CONSTANT(
            type_,
            name =
                ( boost::utility::select_by_size<
                    BOOST_PP_CAT(boost_select_by_size_temp_, name)
                  >::value )
        )
>>
    [None]: the expansion names a specialization that does not exist. *)
Definition BOOST_SELECT_BY_SIZE
    (ns : namespace) (type_ name : string) (expr : ctype)
  : option (list static_constant) :=
  let temp :=
    BOOST_STATIC_CONSTANT "unsigned"
      (BOOST_PP_CAT "boost_select_by_size_temp_" name) (sizeof expr) in
  v ← select_by_size_value ns (c_value temp);
  Some [temp; BOOST_STATIC_CONSTANT type_ name v].

(** The constant a name denotes in a scope. *)
Definition constant_named (name : string) (scope : list static_constant)
  : option static_constant :=
  snd <$> list_find (fun c => c_name c = name) scope.

(** * Properties *)

(** ** Integer conversions *)

Lemma to_unsigned_to_int (z : Z) : to_unsigned (to_int z) = to_unsigned z.
Proof.
  unfold to_unsigned, to_int.
  rewrite Zminus_mod_idemp_l.
  f_equal. lia.
Qed.

Lemma to_unsigned_idemp (z : Z) : to_unsigned (to_unsigned z) = to_unsigned z.
Proof. unfold to_unsigned. apply Zmod_mod. Qed.

Lemma to_unsigned_small (z : Z) : 0 <= z < 2 ^ 32 -> to_unsigned z = z.
Proof. intros Hz. unfold to_unsigned. by apply Z.mod_small. Qed.

(** ** Layout of the tags *)

Lemma align_up_1 (off : Z) : align_up off 1 = off.
Proof. unfold align_up. rewrite Z.div_1_r. lia. Qed.

Lemma layout_base : layout (TStruct [TChar]) = (1, 1).
Proof. reflexivity. Qed.

Lemma layout_step (c2 : ctype) (sz : Z) :
  1 <= sz -> layout c2 = (sz, 1) -> layout (TStruct [TChar; c2]) = (sz + 1, 1).
Proof.
  intros Hsz Hc2. cbn [layout]. fold (layout c2). rewrite Hc2.
  change (Z.max (Z.max 1 1) 1) with 1. rewrite !align_up_1.
  f_equal. lia.
Qed.

(** Below the base case the chain of instantiations never ends, whatever
    depth it is given. *)
Lemma instantiate_below_base (depth : nat) (N : Z) :
  N < -1 -> instantiate_case depth N = None.
Proof.
  revert N. induction depth as [|d IH]; intros N HN; [done|].
  cbn [instantiate_case]. case_decide; [lia|].
  rewrite IH by lia. done.
Qed.

(** With depth to spare, the chain from [N] ends in a type that is all
    [char]: alignment 1 and one byte per level. *)
Lemma instantiate_layout (depth : nat) (N : Z) :
  -1 <= N -> (Z.to_nat (N + 2) <= depth)%nat ->
  exists c, instantiate_case depth N = Some c /\ layout c = (N + 2, 1).
Proof.
  revert N. induction depth as [|d IH]; intros N HN Hd; [lia|].
  cbn [instantiate_case]. case_decide as HN1.
  - subst N. exists (TStruct [TChar]). split; [done|]. apply layout_base.
  - destruct (IH (N - 1)) as (c2 & Hc2 & Hl); [lia..|].
    rewrite Hc2. exists (TStruct [TChar; c2]). split; [done|].
    replace (N + 2) with (N - 1 + 2 + 1) by lia.
    apply layout_step; [lia|done].
Qed.

(** More depth than needed changes nothing. *)
Lemma instantiate_depth (d1 d2 : nat) (N : Z) (c : ctype) :
  (d1 <= d2)%nat -> instantiate_case d1 N = Some c ->
  instantiate_case d2 N = Some c.
Proof.
  revert d2 N c. induction d1 as [|d1 IH]; intros d2 N c Hle H; [done|].
  destruct d2 as [|d2]; [lia|].
  cbn [instantiate_case] in *. case_decide; [done|].
  destruct (instantiate_case d1 (N - 1)) as [c2|] eqn:E; [|done].
  rewrite (IH d2 (N - 1) c2); [done|lia|done].
Qed.

(** The two declarations of the source, as equations. *)
Lemma case_base : case_ (-1) = Some (TStruct [TChar]).
Proof. reflexivity. Qed.

Lemma case_unfold (N : Z) :
  0 <= N -> case_ N = c2 ← case_ (N - 1); Some (TStruct [TChar; c2]).
Proof.
  intros HN. unfold case_.
  replace (Z.to_nat (N + 2)) with (S (Z.to_nat (N - 1 + 2))) by lia.
  cbn [instantiate_case]. case_decide; [lia|done].
Qed.

Lemma case_below_base (N : Z) : N < -1 -> case_ N = None.
Proof. apply instantiate_below_base. Qed.

Lemma sizeof_case_eq (N : Z) : -1 <= N -> sizeof_case N = Some (N + 2).
Proof.
  intros HN. unfold sizeof_case, case_.
  destruct (instantiate_layout (Z.to_nat (N + 2)) N) as (c & -> & Hl); [lia..|].
  cbn. unfold sizeof. by rewrite Hl.
Qed.

Lemma sizeof_case_None (N : Z) : N < -1 -> sizeof_case N = None.
Proof. intros HN. unfold sizeof_case. by rewrite case_below_base. Qed.

Lemma sizeof_case_Some (N sz : Z) :
  sizeof_case N = Some sz <-> -1 <= N /\ sz = N + 2.
Proof.
  split.
  - intros H. destruct (decide (N < -1)) as [Hlt|Hge].
    + by rewrite sizeof_case_None in H.
    + rewrite sizeof_case_eq in H by lia. split; [lia|congruence].
  - intros [HN ->]. by apply sizeof_case_eq.
Qed.

(** [yes_type] and [no_type] are the tags of index 1 and 0. *)
Lemma yes_no_types :
  yes_type = case_ 1 /\ no_type = case_ 0 /\
  sizeof <$> yes_type = Some 3 /\ sizeof <$> no_type = Some 2.
Proof. repeat split. Qed.

(** C2. The sizes of the tags are strictly increasing in the index, hence
    injective: for [-1 <= N1 < N2] both [case_<N1>] and [case_<N2>] are
    complete and [sizeof(case_<N1>) < sizeof(case_<N2>)]; two indices with
    the same size are the same index; for [N >= 0], [case_<N>] takes one
    unit more than [case_<N - 1>]; [case_<-1>] takes one unit, and no tag
    takes less. *)
Theorem case_sizes_strictly_increasing :
  (forall N1 N2 : Z, -1 <= N1 -> N1 < N2 ->
     exists s1 s2, sizeof_case N1 = Some s1 /\ sizeof_case N2 = Some s2 /\
                   s1 < s2) /\
  (forall N1 N2 s1 s2 : Z, N1 <> N2 ->
     sizeof_case N1 = Some s1 -> sizeof_case N2 = Some s2 -> s1 <> s2) /\
  (forall N : Z, 0 <= N ->
     exists s, sizeof_case (N - 1) = Some s /\ sizeof_case N = Some (s + 1)) /\
  sizeof_case (-1) = Some 1 /\
  (forall N s : Z, sizeof_case N = Some s -> 1 <= s).
Proof.
  repeat split.
  - intros N1 N2 H1 H12. exists (N1 + 2), (N2 + 2).
    rewrite !sizeof_case_eq by lia. repeat split; lia.
  - intros N1 N2 s1 s2 Hne [? ->]%sizeof_case_Some [? ->]%sizeof_case_Some. lia.
  - intros N HN. exists (N - 1 + 2).
    rewrite !sizeof_case_eq by lia. split; [done|]. f_equal. lia.
  - intros N s [? ->]%sizeof_case_Some. lia.
Qed.

Lemma case_sizes_strictly_increasing_witness :
  (exists s1 s2, sizeof_case 0 = Some s1 /\ sizeof_case 3 = Some s2 /\ s1 < s2) /\
  (exists s, sizeof_case (1 - 1) = Some s /\ sizeof_case 1 = Some (s + 1)).
Proof.
  split.
  - apply (proj1 case_sizes_strictly_increasing 0 3); lia.
  - apply (proj1 (proj2 (proj2 case_sizes_strictly_increasing)) 1); lia.
Defined.

(** ** What a successful compilation has seen *)

Lemma SELECT_BY_SIZE_SPEC_Ok (n : Z) (ns ns' : namespace) :
  SELECT_BY_SIZE_SPEC n ns = Ok ns' <->
  0 <= n /\ detail ns !! n = None /\
  specializations ns !! to_unsigned (n + 1) = None /\
  ns' = {| detail := <[n := to_int (n + 1)]> (detail ns);
           specializations :=
             <[to_unsigned (n + 1) := specialization_body n]>
               (specializations ns) |}.
Proof.
  unfold SELECT_BY_SIZE_SPEC.
  destruct (sizeof_case (n - 1)) as [sz|] eqn:Hsz.
  - apply sizeof_case_Some in Hsz as [Hn ->].
    replace (n - 1 + 2) with (n + 1) by lia.
    rewrite to_unsigned_to_int.
    destruct (detail ns !! n) eqn:Hd.
    { split; [done|]. by intros (_ & ? & _). }
    destruct (specializations ns !! to_unsigned (n + 1)) eqn:Hs.
    { split; [done|]. by intros (_ & _ & ? & _). }
    split.
    + intros [= <-]. repeat split; [lia|done..].
    + by intros (_ & _ & _ & ->).
  - split; [done|]. intros (Hn & _).
    rewrite sizeof_case_eq in Hsz by lia. done.
Qed.

Lemma compile_from_cons (n : Z) (rest : list Z) (ns ns' : namespace) :
  compile_from ns (n :: rest) = Ok ns' <->
  exists ns1, SELECT_BY_SIZE_SPEC n ns = Ok ns1 /\ compile_from ns1 rest = Ok ns'.
Proof.
  cbn [compile_from]. destruct (SELECT_BY_SIZE_SPEC n ns) as [ns1|d]; cbn.
  - split; [by exists ns1|]. by intros (? & [= <-] & ?).
  - split; [done|]. by intros (? & ? & _).
Qed.

(** The names the compiler accepted were new and distinct. *)
Lemma compile_from_NoDup (out : list Z) (ns ns' : namespace) :
  compile_from ns out = Ok ns' ->
  NoDup out /\ forall n, n ∈ out -> 0 <= n /\ detail ns !! n = None.
Proof.
  revert ns. induction out as [|n rest IH]; intros ns H.
  { split; [constructor|]. intros n Hn. by apply elem_of_nil in Hn. }
  apply compile_from_cons in H as (ns1 & H1 & Hrest).
  apply SELECT_BY_SIZE_SPEC_Ok in H1 as (Hn & Hd & _ & ->).
  destruct (IH _ Hrest) as [Hnd Hnew]. cbn [detail] in Hnew.
  split.
  - constructor; [|done]. intros Hin.
    destruct (Hnew n Hin) as [_ Hnone]. by rewrite lookup_insert_eq in Hnone.
  - intros m [->|Hm]%elem_of_cons; [done|].
    destruct (Hnew m Hm) as [? Hnone].
    apply lookup_insert_None in Hnone as [? _]. done.
Qed.

(** The specializations after a successful compilation are those from
    before and one per invocation, none overwritten. *)
Lemma compile_from_specializations (out : list Z) (ns ns' : namespace) :
  compile_from ns out = Ok ns' ->
  forall (Size : Z) (s : specialization),
    specializations ns' !! Size = Some s <->
    specializations ns !! Size = Some s \/
    exists n, n ∈ out /\ Size = to_unsigned (n + 1) /\
              s = specialization_body n.
Proof.
  revert ns. induction out as [|n rest IH]; intros ns H Size s.
  { injection H as <-. split; [by left|].
    intros [?|(n & Hn & _)]; [done|]. by apply elem_of_nil in Hn. }
  apply compile_from_cons in H as (ns1 & H1 & Hrest).
  apply SELECT_BY_SIZE_SPEC_Ok in H1 as (Hn & _ & Hs & ->).
  rewrite (IH _ Hrest). cbn [specializations].
  rewrite lookup_insert_Some. split.
  - intros [[[<- <-]|[_ ?]]|(m & Hm & ? & ?)].
    + right. exists n. split; [by apply elem_of_cons; left|done].
    + by left.
    + right. exists m. split; [by apply elem_of_cons; right|done].
  - intros [Hold|(m & [->|Hm]%elem_of_cons & -> & ->)].
    + left. right. split; [|done]. intros <-. by rewrite Hs in Hold.
    + left. by left.
    + right. by exists m.
Qed.

Lemma compile_specializations (out : list Z) (ns : namespace) :
  compile out = Ok ns ->
  forall (Size : Z) (s : specialization),
    specializations ns !! Size = Some s <->
    exists n, n ∈ out /\ Size = to_unsigned (n + 1) /\
              s = specialization_body n.
Proof.
  intros H Size s. rewrite (compile_from_specializations _ _ _ H).
  cbn. rewrite lookup_empty. split; [|by right].
  by intros [?|?].
Qed.

(** ** What the preprocessor has emitted *)

Lemma BOOST_PP_ITERATE_fmap (lower upper : Z) :
  BOOST_PP_ITERATE lower upper iterating =
  BOOST_PP_INC <$> seqZ lower (upper - lower + 1).
Proof.
  unfold BOOST_PP_ITERATE, iterating.
  induction (seqZ lower (upper - lower + 1)) as [|i l IH]; csimpl; [done|].
  by f_equal.
Qed.


Lemma BOOST_PP_ITERATE_seqZ (lower upper : Z) :
  BOOST_PP_ITERATE lower upper iterating =
  seqZ (lower + 1) (upper - lower + 1).
Proof.
  rewrite BOOST_PP_ITERATE_fmap, (Z.add_comm lower 1), <- fmap_add_seqZ.
  apply list_fmap_ext. intros _ x _. unfold BOOST_PP_INC. lia.
Qed.


Lemma preprocess_snoc (requests : list (option Z)) (request : option Z) :
  preprocess (requests ++ [request]) =
  include_header request (preprocess requests).
Proof. unfold preprocess. by rewrite foldl_app. Qed.



Lemma clamp_MAX_CASE_ge (request : option Z) : 2 <= clamp_MAX_CASE request.
Proof.
  destruct request as [v|]; cbn; [|lia]. case_decide; lia.
Qed.


Lemma guarded_part_initial : guarded_part initial = default_state.
Proof. reflexivity. Qed.

(** The first inclusion runs the guarded part and then goes on as any
    inclusion into the default state does. *)
Lemma include_header_initial (request : option Z) :
  include_header request initial = include_header request default_state.
Proof. reflexivity. Qed.

(** While the watermark is the number 2, a request above 2 is compared
    with 2: the iteration runs from 2 to the request, and the watermark
    becomes the token. *)
Lemma include_header_default (request : option Z) :
  include_header request default_state =
  if decide (2 < clamp_MAX_CASE request)
  then extended_state (clamp_MAX_CASE request)
  else default_state.
Proof.
  unfold include_header, specializing_part.
  change (guarded_part default_state) with default_state.
  change (expand _ (SELECT_BY_SIZE_MAX_SPECIALIZED default_state)) with 2.
  destruct (decide (2 < clamp_MAX_CASE request)) as [Hgt|Hle].
  - rewrite decide_True by lia. unfold extended_state. cbn [HPP_INCLUDED output
      default_state]. rewrite BOOST_PP_ITERATE_seqZ.
    do 3 f_equal. lia.
  - by rewrite decide_False by lia.
Qed.

(** Once the watermark is the token, the request is compared with
    itself: nothing is generated, whatever the request. *)
Lemma include_header_extended (request : option Z) (M : Z) :
  include_header request (extended_state M) = extended_state M.
Proof.
  unfold include_header, specializing_part.
  change (guarded_part (extended_state M)) with (extended_state M).
  change (expand (Some (clamp_MAX_CASE request))
            (SELECT_BY_SIZE_MAX_SPECIALIZED (extended_state M)))
    with (clamp_MAX_CASE request).
  by rewrite decide_False by lia.
Qed.

Lemma first_extension_snoc (requests : list (option Z)) (request : option Z) :
  first_extension (requests ++ [request]) =
  match first_extension requests with
  | Some M => Some M
  | None =>
      if decide (2 < clamp_MAX_CASE request) then Some (clamp_MAX_CASE request)
      else None
  end.
Proof.
  induction requests as [|r rs IH]; cbn [first_extension app]; [done|].
  destruct (decide (2 < clamp_MAX_CASE r)); [done|apply IH].
Qed.

Lemma first_extension_Some (requests : list (option Z)) (M : Z) :
  first_extension requests = Some M -> 2 < M /\ Some M ∈ requests.
Proof.
  induction requests as [|r rs IH]; cbn [first_extension]; [done|].
  case_decide as Hgt.
  - intros [= <-]. split; [done|]. apply elem_of_cons. left.
    destruct r as [v|]; cbn in *; [|lia]. case_decide; [lia|done].
  - intros [? ?]%IH. split; [done|]. by apply elem_of_cons; right.
Qed.

(** The state after any inclusions, in closed form: the default state
    until a request is above 2, the state extended to that request ever
    after. *)
Lemma preprocess_closed_form (requests : list (option Z)) :
  requests <> [] ->
  preprocess requests =
  match first_extension requests with
  | None => default_state
  | Some M => extended_state M
  end.
Proof.
  induction requests as [|request requests IH] using rev_ind; [done|].
  intros _. rewrite preprocess_snoc, first_extension_snoc.
  destruct requests as [|r0 rs].
  - change (preprocess []) with initial.
    rewrite include_header_initial, include_header_default.
    cbn [first_extension]. by case_decide.
  - rewrite IH by done. destruct (first_extension (r0 :: rs)) as [M|].
    + apply include_header_extended.
    + rewrite include_header_default. by case_decide.
Qed.

Lemma covered_bound_ge (requests : list (option Z)) : 1 <= covered_bound requests.
Proof.
  unfold covered_bound. destruct (first_extension requests) as [M|] eqn:E; [|done].
  apply first_extension_Some in E as [? _]. cbn. lia.
Qed.

Lemma elem_of_output (requests : list (option Z)) (n : Z) :
  requests <> [] ->
  n ∈ output (preprocess requests) <-> 0 <= n <= covered_bound requests + 1.
Proof.
  intros Hne. rewrite preprocess_closed_form by done. unfold covered_bound.
  destruct (first_extension requests) as [M|] eqn:E; cbn [default output
    default_state extended_state].
  - apply first_extension_Some in E as [HM _].
    rewrite elem_of_app, elem_of_seqZ, !elem_of_cons, elem_of_nil.
    change (id M) with M. lia.
  - rewrite !elem_of_cons, elem_of_nil. lia.
Qed.

(** The header never hands the compiler an invocation twice. *)
Lemma NoDup_output (requests : list (option Z)) :
  NoDup (output (preprocess requests)).
Proof.
  destruct requests as [|r0 rs]; [constructor|].
  rewrite preprocess_closed_form by done.
  assert (NoDup [0; 1; 2]) as Hdef.
  { apply (bool_decide_unpack _). vm_compute. exact I. }
  destruct (first_extension (r0 :: rs)) as [M|]; [|done].
  cbn [output extended_state]. apply NoDup_app.
  split; [done|]. split; [|apply NoDup_seqZ].
  intros n Hn Hseq%elem_of_seqZ. rewrite !elem_of_cons, elem_of_nil in Hn. lia.
Qed.

(** The generated indices are those from [-1] to the covered bound. *)
Lemma generated_range (requests : list (option Z)) (N : Z) :
  requests <> [] ->
  generated (preprocess requests) N <-> -1 <= N <= covered_bound requests.
Proof.
  intros Hne. unfold generated. rewrite elem_of_output by done. lia.
Qed.

(** ** Translation units that build *)

(** Distinct invocations with new names, on tags whose sizes fit
    [unsigned] and are not specialized yet, all compile. *)
Lemma compile_from_Ok (out : list Z) (ns : namespace) :
  NoDup out ->
  (forall n, n ∈ out ->
     0 <= n /\ n + 1 < 2 ^ 32 /\ detail ns !! n = None /\
     specializations ns !! to_unsigned (n + 1) = None) ->
  exists ns', compile_from ns out = Ok ns'.
Proof.
  revert ns. induction out as [|n rest IH]; intros ns Hnd Hout.
  { by exists ns. }
  apply NoDup_cons in Hnd as [Hn Hnd].
  destruct (Hout n) as (Hn0 & Hn32 & Hd & Hs); [by apply elem_of_cons; left|].
  destruct (IH {| detail := <[n := to_int (n + 1)]> (detail ns);
                  specializations :=
                    <[to_unsigned (n + 1) := specialization_body n]>
                      (specializations ns) |} Hnd) as [ns' Hns'].
  - intros m Hm.
    destruct (Hout m) as (Hm0 & Hm32 & Hdm & Hsm); [by apply elem_of_cons; right|].
    assert (m <> n) as Hne by (by intros ->).
    split; [done|]. split; [done|]. cbn [detail specializations].
    rewrite !lookup_insert_ne; [done|..|done].
    rewrite !to_unsigned_small by lia. lia.
  - exists ns'. apply compile_from_cons. eexists. split; [|exact Hns'].
    by apply SELECT_BY_SIZE_SPEC_Ok.
Qed.


(** A translation unit that includes the header builds, as long as the
    sizes of the generated tags fit [unsigned]. *)
Lemma build_Ok (requests : list (option Z)) :
  requests <> [] ->
  covered_bound requests + 2 < 2 ^ 32 ->
  exists ns, build requests = Ok ns.
Proof.
  intros Hne Hc. apply compile_from_Ok; [apply NoDup_output|].
  intros n Hn%elem_of_output; [|done].
  cbn. rewrite !lookup_empty. repeat split; lia.
Qed.

(** In a translation unit that builds, the size of each generated tag
    selects the specialization made for it. *)
Lemma build_resolves (requests : list (option Z)) (ns : namespace) (n : Z) :
  requests <> [] -> build requests = Ok ns ->
  0 <= n <= covered_bound requests + 1 ->
  select_by_size ns (n + 1) = Some (specialization_body n).
Proof.
  intros Hne Hb Hn. unfold select_by_size.
  apply (compile_specializations _ _ Hb). exists n.
  split; [by apply elem_of_output|done].
Qed.

(** And a size that is the size of no generated tag selects nothing. *)
Lemma build_defined (requests : list (option Z)) (ns : namespace) (Size : Z) :
  requests <> [] -> build requests = Ok ns ->
  covered_bound requests + 2 < 2 ^ 32 ->
  is_Some (select_by_size ns Size) <->
  exists n, 0 <= n <= covered_bound requests + 1 /\ to_unsigned Size = n + 1.
Proof.
  intros Hne Hb Hc. unfold select_by_size, is_Some. split.
  - intros [s Hs]. apply (compile_specializations _ _ Hb) in Hs
      as (n & Hn%elem_of_output & HSize & _); [|done].
    exists n. split; [done|]. rewrite HSize. apply to_unsigned_small. lia.
  - intros (n & Hn & HSize). exists (specialization_body n).
    apply (compile_specializations _ _ Hb). exists n.
    split; [by apply elem_of_output|]. split; [|done].
    rewrite HSize. symmetry. apply to_unsigned_small. lia.
Qed.

(** ** The resolver *)

(** C1. For every index [N] of the generated range, from [-1] to the
    covered bound, resolving the storage size of its tag yields exactly
    [N]: a translation unit that includes the header builds (the sizes of
    the generated tags fitting [unsigned]), each such [case_<N>] has been
    generated, [sizeof(case_<N>)] is defined and
    [select_by_size< sizeof(case_<N>) >::value] is [N]. *)
Theorem select_by_size_resolves_index (requests : list (option Z)) :
  requests <> [] ->
  covered_bound requests + 2 < 2 ^ 32 ->
  exists ns, build requests = Ok ns /\
    forall N, -1 <= N <= covered_bound requests ->
      generated (preprocess requests) N /\
      exists sz, sizeof_case N = Some sz /\
                 select_by_size_value ns sz = Some N.
Proof.
  intros Hne Hc. destruct (build_Ok requests Hne Hc) as [ns Hb].
  exists ns. split; [done|]. intros N HN.
  split; [by apply generated_range|].
  exists (N + 2). split; [apply sizeof_case_eq; lia|].
  unfold select_by_size_value. replace (N + 2) with (N + 1 + 1) by lia.
  rewrite (build_resolves requests ns (N + 1)) by (done || lia).
  cbn. f_equal. lia.
Qed.

Lemma select_by_size_resolves_index_witness :
  exists ns, build [None; Some 5; Some 9] = Ok ns /\
    forall N, -1 <= N <= covered_bound [None; Some 5; Some 9] ->
      generated (preprocess [None; Some 5; Some 9]) N /\
      exists sz, sizeof_case N = Some sz /\
                 select_by_size_value ns sz = Some N.
Proof.
  apply (select_by_size_resolves_index [None; Some 5; Some 9]);
    [discriminate|vm_compute; reflexivity].
Defined.

(** C7. The resolver is partial, it is defined exactly on the sizes of
    the generated tags, and an unresolved lookup is the only failure:
    a translation unit that includes the header builds, whatever the
    requests (the header itself raises no diagnostic, the sizes of the
    generated tags fitting [unsigned]), and [select_by_size<Size>] has a
    specialization if and only if [Size], as the [unsigned] template
    argument it is, is [sizeof(case_<N>)] for an index [N] of the
    generated range; then its value is [N], and for every other size the
    lookup finds nothing. *)
Theorem select_by_size_defined_iff (requests : list (option Z)) :
  requests <> [] ->
  covered_bound requests + 2 < 2 ^ 32 ->
  exists ns, build requests = Ok ns /\
    forall Size,
      (is_Some (select_by_size ns Size) <->
       exists N sz, generated (preprocess requests) N /\
                    sizeof_case N = Some sz /\
                    to_unsigned Size = sz) /\
      (select_by_size_value ns Size = None \/
       exists N, -1 <= N <= covered_bound requests /\
                 sizeof_case N = Some (to_unsigned Size) /\
                 select_by_size_value ns Size = Some N).
Proof.
  intros Hne Hc. destruct (build_Ok requests Hne Hc) as [ns Hb].
  exists ns. split; [done|]. intros Size.
  pose proof (build_defined requests ns Size Hne Hb Hc) as Hdef. split.
  - rewrite Hdef. split.
    + intros (n & Hn & HSize). exists (n - 1), (n + 1).
      split; [apply generated_range; [done|lia]|].
      split; [|done]. rewrite sizeof_case_eq by lia. f_equal. lia.
    + intros (N & sz & HN%generated_range & [? ->]%sizeof_case_Some & HSize);
        [|done].
      exists (N + 1). split; lia.
  - destruct (select_by_size ns Size) as [s|] eqn:Hs.
    + right. destruct (proj1 Hdef ltac:(by eexists)) as (n & Hn & HSize).
      exists (n - 1). split; [lia|].
      split; [rewrite HSize, sizeof_case_eq by lia; f_equal; lia|].
      unfold select_by_size_value, select_by_size in *.
      rewrite HSize in *.
      pose proof (build_resolves requests ns n Hne Hb Hn) as Hr.
      unfold select_by_size in Hr.
      rewrite (to_unsigned_small (n + 1)) in Hr by lia.
      by rewrite Hr.
    + left. unfold select_by_size_value. by rewrite Hs.
Qed.

Lemma select_by_size_defined_iff_witness :
  exists ns, build [Some 3; Some 10] = Ok ns /\
    forall Size,
      (is_Some (select_by_size ns Size) <->
       exists N sz, generated (preprocess [Some 3; Some 10]) N /\
                    sizeof_case N = Some sz /\
                    to_unsigned Size = sz) /\
      (select_by_size_value ns Size = None \/
       exists N, -1 <= N <= covered_bound [Some 3; Some 10] /\
                 sizeof_case N = Some (to_unsigned Size) /\
                 select_by_size_value ns Size = Some N).
Proof.
  apply (select_by_size_defined_iff [Some 3; Some 10]);
    [discriminate|vm_compute; reflexivity].
Defined.

(** C10. The two ways of reading the resolved index agree: for every
    size, what the compiler accepted gives [select_by_size<S>::value] and
    [select_by_size<S>::type::value] the same value, defined for the same
    sizes; and where a specialization exists, they are the same number. *)
Theorem value_eq_type_value (out : list Z) (ns : namespace) (Size : Z) :
  compile out = Ok ns ->
  select_by_size_value ns Size = select_by_size_type_value ns Size /\
  forall s, select_by_size ns Size = Some s ->
            c_value (value s) = c_value (type_value s).
Proof.
  intros Hc.
  assert (forall s, select_by_size ns Size = Some s ->
                    c_value (value s) = c_value (type_value s)) as Hs.
  { intros s Hs. unfold select_by_size in Hs.
    apply (compile_specializations _ _ Hc) in Hs as (n & _ & _ & ->). done. }
  split; [|done]. unfold select_by_size_value, select_by_size_type_value.
  destruct (select_by_size ns Size) as [s|]; [|done].
  cbn. f_equal. by apply Hs.
Qed.

Lemma value_eq_type_value_witness :
  exists ns, compile [0; 1; 2] = Ok ns /\
    select_by_size_value ns 3 = Some 1 /\
    select_by_size_value ns 3 = select_by_size_type_value ns 3.
Proof.
  eexists. split; [vm_compute; reflexivity|]. split; [vm_compute; reflexivity|].
  apply (value_eq_type_value [0; 1; 2]). vm_compute. reflexivity.
Defined.

(** ** The generator *)





(** C6. A request that is undefined or below the minimum is clamped to
    the minimum 2: the inclusion does exactly what it does on a request
    for 2, from any state, so state, emitted specializations and build
    are the same. *)
Theorem MAX_CASE_clamped_to_minimum
    (requests : list (option Z)) (request : option Z) :
  (request = None \/ exists v, request = Some v /\ v < 2) ->
  clamp_MAX_CASE request = 2 /\
  (forall st, include_header request st = include_header (Some 2) st) /\
  preprocess (requests ++ [request]) = preprocess (requests ++ [Some 2]) /\
  build (requests ++ [request]) = build (requests ++ [Some 2]).
Proof.
  intros Hreq.
  assert (clamp_MAX_CASE request = 2) as Hc.
  { destruct Hreq as [->|(v & -> & Hv)]; cbn; [done|]. by case_decide. }
  assert (forall st, include_header request st = include_header (Some 2) st)
    as Hinc.
  { intros st. unfold include_header, specializing_part. by rewrite Hc. }
  split; [done|]. split; [done|].
  assert (preprocess (requests ++ [request]) =
          preprocess (requests ++ [Some 2])) as Hpp.
  { by rewrite !preprocess_snoc. }
  split; [done|]. unfold build. by rewrite Hpp.
Qed.

Lemma MAX_CASE_clamped_to_minimum_witness :
  clamp_MAX_CASE (Some (-7)) = 2 /\
  (forall st, include_header (Some (-7)) st = include_header (Some 2) st) /\
  preprocess ([Some 4] ++ [Some (-7)]) = preprocess ([Some 4] ++ [Some 2]) /\
  build ([Some 4] ++ [Some (-7)]) = build ([Some 4] ++ [Some 2]).
Proof.
  apply (MAX_CASE_clamped_to_minimum [Some 4] (Some (-7))).
  right. exists (-7). split; [reflexivity|lia].
Defined.

(** C3. Incremental extension, at bound 3 and then bound 4. The first
    inclusion builds, generates [case_<-1>] to [case_<3>] and leaves the
    watermark macro defined as the token [BOOST_SELECT_BY_SIZE_MAX_CASE].
    The second inclusion therefore compares its request with itself: it
    emits nothing and leaves the state as it was. The translation unit
    builds, [case_<3>] still resolves to 3, and [sizeof(case_<4>)] has no
    specialization. *)
Theorem incremental_extension_generates_nothing :
  output (preprocess [Some 3]) = [0; 1; 2; 3; 4] /\
  SELECT_BY_SIZE_MAX_SPECIALIZED (preprocess [Some 3]) =
    Some BOOST_SELECT_BY_SIZE_MAX_CASE_token /\
  preprocess [Some 3; Some 4] = preprocess [Some 3] /\
  output (preprocess [Some 3; Some 4]) = [0; 1; 2; 3; 4] /\
  ~ generated (preprocess [Some 3; Some 4]) 4 /\
  sizeof_case 4 = Some 6 /\
  exists ns, build [Some 3; Some 4] = Ok ns /\
    select_by_size_value ns 5 = Some 3 /\
    select_by_size ns 6 = None.
Proof.
  repeat (split; [reflexivity|]).
  split; [apply (bool_decide_unpack _); vm_compute; exact I|].
  split; [reflexivity|].
  eexists. repeat split; vm_compute; reflexivity.
Qed.

(** C8. The watermark over inclusions with requests 7 and then 3, and 3
    and then 6. After the default inclusion the macro is the number 2.
    After an extension it is the token [BOOST_SELECT_BY_SIZE_MAX_CASE]:
    between inclusions [#if] reads it as 0, and in a later inclusion as
    the request of that inclusion, 3 after an extension to 7. A later,
    strictly larger request (6 after 3) changes neither the macro nor the
    output. *)
Theorem watermark_holds_the_request_token :
  SELECT_BY_SIZE_MAX_SPECIALIZED (preprocess [None]) = Some (Number 2) /\
  watermark (preprocess [None]) = 2 /\
  SELECT_BY_SIZE_MAX_SPECIALIZED (preprocess [None; Some 7]) =
    Some BOOST_SELECT_BY_SIZE_MAX_CASE_token /\
  watermark (preprocess [None; Some 7]) = 0 /\
  expand (Some (clamp_MAX_CASE (Some 3)))
    (SELECT_BY_SIZE_MAX_SPECIALIZED (preprocess [None; Some 7])) = 3 /\
  preprocess [Some 3; Some 6] = preprocess [Some 3] /\
  output (preprocess [Some 3; Some 6]) = [0; 1; 2; 3; 4] /\
  expand (Some (clamp_MAX_CASE (Some 6)))
    (SELECT_BY_SIZE_MAX_SPECIALIZED (preprocess [Some 3; Some 6])) = 6.
Proof. repeat split. Qed.

(** C4. A default inclusion (no request; the same with a request for 2)
    emits the three default specializations and nothing else: the
    watermark is 2, the resolver is defined for [case_<-1>], [case_<0>]
    and [case_<1>], and it is not defined for [sizeof(case_<2>)]. *)
Theorem default_inclusion_stops_at_case_1 :
  preprocess [None] =
    {| HPP_INCLUDED := true;
       SELECT_BY_SIZE_MAX_SPECIALIZED := Some (Number 2);
       output := [0; 1; 2] |} /\
  preprocess [Some 2] = preprocess [None] /\
  sizeof_case 2 = Some 4 /\
  ~ generated (preprocess [None]) 2 /\
  exists ns, build [None] = Ok ns /\
    select_by_size_value ns 1 = Some (-1) /\
    select_by_size_value ns 2 = Some 0 /\
    select_by_size_value ns 3 = Some 1 /\
    select_by_size ns 4 = None.
Proof.
  split; [reflexivity|]. split; [reflexivity|]. split; [reflexivity|].
  split.
  - apply (bool_decide_unpack _). vm_compute. exact I.
  - eexists. repeat split; vm_compute; reflexivity.
Qed.

(** ** The helper macro *)

Lemma length_append (a b : string) :
  String.length (a +:+ b) = (String.length a + String.length b)%nat.
Proof.
  induction a as [|ch a IH]; [done|].
  change (String ch a +:+ b) with (String ch (a +:+ b)).
  cbn [String.length]. by rewrite IH.
Qed.

Lemma temp_name_fresh (name : string) :
  BOOST_PP_CAT "boost_select_by_size_temp_" name <> name.
Proof.
  intros Heq. apply (f_equal String.length) in Heq.
  unfold BOOST_PP_CAT in Heq. rewrite length_append in Heq.
  cbn [String.length] in Heq. lia.
Qed.

(** C9. [BOOST_SELECT_BY_SIZE(type_, name, expr)] declares, after the
    temporary that holds [sizeof(expr)], a constant named [name] of type
    [type_] whose value is [select_by_size< sizeof(expr) >::value]; in
    the scope it expands into, [name] denotes that constant. Where the
    size has no specialization the expansion is ill-formed. *)
Theorem BOOST_SELECT_BY_SIZE_declares
    (ns : namespace) (type_ name : string) (expr : ctype) :
  match select_by_size_value ns (sizeof expr) with
  | Some v =>
      exists scope,
        BOOST_SELECT_BY_SIZE ns type_ name expr = Some scope /\
        constant_named name scope =
          Some {| c_type := type_; c_name := name; c_value := v |}
  | None => BOOST_SELECT_BY_SIZE ns type_ name expr = None
  end.
Proof.
  unfold BOOST_SELECT_BY_SIZE. cbn [c_value BOOST_STATIC_CONSTANT].
  destruct (select_by_size_value ns (sizeof expr)) as [v|]; [|done].
  eexists. split; [reflexivity|].
  unfold constant_named, BOOST_STATIC_CONSTANT. cbn [list_find c_name].
  rewrite decide_False by apply temp_name_fresh.
  rewrite decide_True by done. done.
Qed.

(** * Further properties of the header *)

(** ** The tags *)

(** X1. [case_<N>] is a complete type exactly for [N >= -1]: from there
    the members lead down to the explicit specialization [case_<-1>];
    below [-1] they lead away from it, and the instantiation does not
    complete, however deep the compiler is allowed to go. *)
Theorem case_complete_iff (N : Z) :
  (is_Some (case_ N) <-> -1 <= N) /\
  (N < -1 -> forall depth, instantiate_case depth N = None).
Proof.
  split; [split|].
  - intros [t Ht]. destruct (decide (N < -1)) as [Hlt|?]; [|lia].
    by rewrite case_below_base in Ht.
  - intros HN. unfold case_.
    destruct (instantiate_layout (Z.to_nat (N + 2)) N) as (c & -> & _);
      [lia..|done].
  - intros HN depth. by apply instantiate_below_base.
Qed.

Lemma case_complete_iff_witness : instantiate_case 100 (-2) = None.
Proof. apply (proj2 (case_complete_iff (-2))). lia. Defined.

(** X2. The tags are packed: for [N >= -1], [case_<N>] is complete, has
    alignment 1 and takes exactly [N + 2] bytes. *)
Theorem case_size_and_alignment (N : Z) :
  -1 <= N ->
  exists t, case_ N = Some t /\ sizeof t = N + 2 /\ alignof t = 1.
Proof.
  intros HN. unfold case_, sizeof, alignof.
  destruct (instantiate_layout (Z.to_nat (N + 2)) N) as (c & -> & Hl);
    [lia..|]. exists c. by rewrite Hl.
Qed.

Lemma case_size_and_alignment_witness :
  exists t, case_ 5 = Some t /\ sizeof t = 5 + 2 /\ alignof t = 1.
Proof. apply (case_size_and_alignment 5). lia. Defined.

(** ** What the inclusions emit *)

(** X3. The include guard works: however often and with whatever requests
    the header is included, the three default invocations
    [SELECT_BY_SIZE_SPEC(0)], [(1)], [(2)] open the output and are never
    emitted again; everything after them is for [n >= 3]. *)
Theorem default_specializations_emitted_once (requests : list (option Z)) :
  requests <> [] ->
  exists rest, output (preprocess requests) = [0; 1; 2] ++ rest /\
               (forall n, n ∈ rest -> 3 <= n) /\
               HPP_INCLUDED (preprocess requests) = true.
Proof.
  intros Hne. rewrite preprocess_closed_form by done.
  destruct (first_extension requests) as [M|].
  - exists (seqZ 3 (M - 1)). split; [done|]. split; [|done].
    intros n Hn%elem_of_seqZ. lia.
  - exists []. split; [done|]. split; [|done].
    intros n Hn. by apply elem_of_nil in Hn.
Qed.

Lemma default_specializations_emitted_once_witness :
  exists rest, output (preprocess [None; Some 4; None; Some 6]) = [0; 1; 2] ++ rest /\
               (forall n, n ∈ rest -> 3 <= n) /\
               HPP_INCLUDED (preprocess [None; Some 4; None; Some 6]) = true.
Proof.
  apply (default_specializations_emitted_once [None; Some 4; None; Some 6]).
  discriminate.
Defined.

Lemma output_extended_seqZ (M : Z) :
  2 < M -> [0; 1; 2] ++ seqZ 3 (M - 1) = seqZ 0 (M + 2).
Proof.
  intros HM. replace (M + 2) with (3 + (M - 1)) by lia.
  by rewrite seqZ_app by lia.
Qed.

(** X5. What a translation unit has emitted after any inclusions: the
    invocations [SELECT_BY_SIZE_SPEC(0)], ..., [SELECT_BY_SIZE_SPEC(M + 1)],
    each once and in this order, where [M] is the first request above 2,
    and then the watermark macro is the token; without a request above 2,
    the three default invocations, and the watermark macro is still the
    number 2. Requests after the first one above 2 contribute nothing. *)
Theorem output_after_inclusions (requests : list (option Z)) :
  requests <> [] ->
  match first_extension requests with
  | Some M =>
      2 < M /\ Some M ∈ requests /\
      output (preprocess requests) = seqZ 0 (M + 2) /\
      SELECT_BY_SIZE_MAX_SPECIALIZED (preprocess requests) =
        Some BOOST_SELECT_BY_SIZE_MAX_CASE_token
  | None =>
      output (preprocess requests) = [0; 1; 2] /\
      SELECT_BY_SIZE_MAX_SPECIALIZED (preprocess requests) = Some (Number 2)
  end.
Proof.
  intros Hne. rewrite preprocess_closed_form by done.
  destruct (first_extension requests) as [M|] eqn:E; [|done].
  apply first_extension_Some in E as [HM Hin].
  split; [done|]. split; [done|]. split; [|done].
  by apply output_extended_seqZ.
Qed.

Lemma output_after_inclusions_witness :
  match first_extension [Some 1; Some 4; None; Some 9] with
  | Some M =>
      2 < M /\ Some M ∈ [Some 1; Some 4; None; Some 9] /\
      output (preprocess [Some 1; Some 4; None; Some 9]) = seqZ 0 (M + 2) /\
      SELECT_BY_SIZE_MAX_SPECIALIZED (preprocess [Some 1; Some 4; None; Some 9]) =
        Some BOOST_SELECT_BY_SIZE_MAX_CASE_token
  | None =>
      output (preprocess [Some 1; Some 4; None; Some 9]) = [0; 1; 2] /\
      SELECT_BY_SIZE_MAX_SPECIALIZED (preprocess [Some 1; Some 4; None; Some 9]) =
        Some (Number 2)
  end.
Proof.
  apply (output_after_inclusions [Some 1; Some 4; None; Some 9]). discriminate.
Defined.

(** X6. The header extends once: when the watermark macro has become the
    token [BOOST_SELECT_BY_SIZE_MAX_CASE], no further inclusion changes
    the state or emits anything, whatever it requests. *)
Theorem requests_after_extension_ignored (requests more : list (option Z)) :
  SELECT_BY_SIZE_MAX_SPECIALIZED (preprocess requests) =
    Some BOOST_SELECT_BY_SIZE_MAX_CASE_token ->
  preprocess (requests ++ more) = preprocess requests.
Proof.
  intros Htoken. destruct requests as [|r0 rs]; [done|].
  induction more as [|r more IH] using rev_ind; [by rewrite app_nil_r|].
  rewrite app_assoc, preprocess_snoc, IH.
  rewrite preprocess_closed_form in Htoken |- * by done.
  destruct (first_extension (r0 :: rs)) as [M|]; [|done].
  apply include_header_extended.
Qed.

Lemma requests_after_extension_ignored_witness :
  preprocess ([None; Some 3] ++ [Some 9; None; Some 4]) =
  preprocess [None; Some 3].
Proof.
  apply (requests_after_extension_ignored [None; Some 3] [Some 9; None; Some 4]).
  reflexivity.
Defined.

(** X7. After at least one inclusion the generated indices form a range
    without holes from [-1] to the covered bound: up to [1] as long as no
    request was above 2, and up to the first request above 2 ever after,
    whatever was requested later. *)
Theorem generated_indices_form_a_range (requests : list (option Z)) (N : Z) :
  requests <> [] ->
  generated (preprocess requests) N <->
  -1 <= N <= match first_extension requests with Some M => M | None => 1 end.
Proof. intros Hne. by rewrite generated_range. Qed.

Lemma generated_indices_form_a_range_witness :
  generated (preprocess [Some 3; Some 5]) 5 <->
  -1 <= 5 <= match first_extension [Some 3; Some 5] with
             | Some M => M | None => 1 end.
Proof.
  apply (generated_indices_form_a_range [Some 3; Some 5] 5). discriminate.
Defined.

(** X10. The header never hands the compiler the same invocation twice,
    however often and with whatever requests it is included. *)
Theorem never_emits_twice (requests : list (option Z)) :
  NoDup (output (preprocess requests)).
Proof. apply NoDup_output. Qed.

(** ** Builds *)

(** The constants of namespace [detail] after a successful compilation
    are those from before and one per invocation. *)
Lemma compile_from_detail (out : list Z) (ns ns' : namespace) :
  compile_from ns out = Ok ns' ->
  forall n v : Z,
    detail ns' !! n = Some v <->
    detail ns !! n = Some v \/ n ∈ out /\ v = to_int (n + 1).
Proof.
  revert ns. induction out as [|m rest IH]; intros ns H n v.
  { injection H as <-. split; [by left|].
    intros [?|[Hn _]]; [done|]. by apply elem_of_nil in Hn. }
  apply compile_from_cons in H as (ns1 & H1 & Hrest).
  apply SELECT_BY_SIZE_SPEC_Ok in H1 as (Hm & Hd & _ & ->).
  rewrite (IH _ Hrest). cbn [detail]. rewrite lookup_insert_Some.
  rewrite elem_of_cons. split.
  - intros [[[<- <-]|[_ ?]]|[? ?]]; [right; split; [by left|done]|by left|].
    right. split; [by right|done].
  - intros [Hold|[[->|Hn] ->]].
    + left. right. split; [|done]. intros <-. by rewrite Hd in Hold.
    + left. by left.
    + right. done.
Qed.


Lemma to_int_small (z : Z) : - 2 ^ 31 <= z < 2 ^ 31 -> to_int z = z.
Proof. intros Hz. unfold to_int. rewrite Z.mod_small; lia. Qed.

(** X12. The first extension works, as the header documents: in a
    translation unit whose watermark is still at its initial value (the
    header not yet included, or included without a request above 2: the
    watermark macro is not yet the token), an
    inclusion with request [M > 2] builds, and the resolver maps the size
    of every tag from [case_<-1>] to [case_<M>] to its index. *)
Theorem first_extension_builds (requests : list (option Z)) (M : Z) :
  SELECT_BY_SIZE_MAX_SPECIALIZED (preprocess requests) <>
    Some BOOST_SELECT_BY_SIZE_MAX_CASE_token ->
  2 < M -> M + 2 < 2 ^ 32 ->
  exists ns, build (requests ++ [Some M]) = Ok ns /\
    forall N, -1 <= N <= M ->
      sizeof_case N = Some (N + 2) /\
      select_by_size_value ns (N + 2) = Some N.
Proof.
  intros Hmacro HM HM32.
  assert (requests ++ [Some M] <> []) as Hne by (by destruct requests).
  assert (clamp_MAX_CASE (Some M) = M) as Hc by (cbn; case_decide; lia).
  assert (first_extension requests = None) as Hfirst.
  { destruct requests as [|r0 rs]; [done|].
    rewrite preprocess_closed_form in Hmacro by done.
    by destruct (first_extension (r0 :: rs)). }
  assert (covered_bound (requests ++ [Some M]) = M) as Hcov.
  { unfold covered_bound. rewrite first_extension_snoc, Hfirst, Hc.
    by rewrite decide_True by lia. }
  destruct (build_Ok (requests ++ [Some M])) as [ns Hns]; [done|lia|].
  exists ns. split; [done|]. intros N HN.
  split; [apply sizeof_case_eq; lia|].
  unfold select_by_size_value. replace (N + 2) with (N + 1 + 1) by lia.
  rewrite (build_resolves _ ns (N + 1) Hne Hns) by lia.
  cbn. f_equal. lia.
Qed.

Lemma first_extension_builds_witness :
  exists ns, build ([None; Some 1] ++ [Some 7]) = Ok ns /\
    forall N, -1 <= N <= 7 ->
      sizeof_case N = Some (N + 2) /\
      select_by_size_value ns (N + 2) = Some N.
Proof.
  apply (first_extension_builds [None; Some 1] 7);
    [vm_compute; discriminate|lia|lia].
Defined.

(** X14. The constants of namespace [detail]: a translation unit that
    includes the header builds (sizes fitting [unsigned]) and declares
    [detail::sizeof_case_n] exactly for the [n] with [case_<n - 1>] in
    the generated range; the constant holds [sizeof(case_<n - 1>)] (the
    size fitting [int]). *)
Theorem detail_holds_tag_sizes (requests : list (option Z)) :
  requests <> [] ->
  covered_bound requests + 2 < 2 ^ 32 ->
  exists ns, build requests = Ok ns /\
    forall n,
      (is_Some (detail ns !! n) <-> 0 <= n <= covered_bound requests + 1) /\
      (0 <= n <= covered_bound requests + 1 -> n + 1 < 2 ^ 31 ->
       detail ns !! n = sizeof_case (n - 1)).
Proof.
  intros Hne Hc. destruct (build_Ok requests Hne Hc) as [ns Hb].
  exists ns. split; [done|]. intros n.
  assert (forall v, detail ns !! n = Some v <->
                    0 <= n <= covered_bound requests + 1 /\ v = to_int (n + 1))
    as Hd.
  { intros v. rewrite (compile_from_detail _ _ _ Hb). cbn.
    rewrite lookup_empty, elem_of_output by done.
    split; [by intros [?|?]|by right]. }
  split.
  - split; [intros [v Hv]; by apply Hd in Hv as [? _]|].
    intros Hn. eexists. by apply Hd.
  - intros Hn Hn31. rewrite sizeof_case_eq by lia. apply Hd.
    split; [done|]. rewrite to_int_small by lia. lia.
Qed.

Lemma detail_holds_tag_sizes_witness :
  exists ns, build [Some 4; Some 8] = Ok ns /\
    forall n,
      (is_Some (detail ns !! n) <->
       0 <= n <= covered_bound [Some 4; Some 8] + 1) /\
      (0 <= n <= covered_bound [Some 4; Some 8] + 1 -> n + 1 < 2 ^ 31 ->
       detail ns !! n = sizeof_case (n - 1)).
Proof.
  apply (detail_holds_tag_sizes [Some 4; Some 8]);
    [discriminate|vm_compute; reflexivity].
Defined.

(** X15. [yes_type] and [no_type] are always there: whatever the
    requests (sizes fitting [unsigned]), a translation unit that includes
    the header builds and resolves [sizeof(yes_type)] to 1,
    [sizeof(no_type)] to 0 and [sizeof(case_<-1>)] to -1. *)
Theorem yes_no_always_resolved (requests : list (option Z)) :
  requests <> [] ->
  covered_bound requests + 2 < 2 ^ 32 ->
  exists (ns : namespace) (yes no : ctype),
    build requests = Ok ns /\
    yes_type = Some yes /\ no_type = Some no /\
    select_by_size_value ns (sizeof yes) = Some 1 /\
    select_by_size_value ns (sizeof no) = Some 0 /\
    select_by_size_value ns 1 = Some (-1).
Proof.
  intros Hne Hc. destruct (build_Ok requests Hne Hc) as [ns Hb].
  pose proof (covered_bound_ge requests) as Hge.
  assert (forall n, 0 <= n <= 2 ->
            select_by_size_value ns (n + 1) = Some (n - 1)) as Hsel.
  { intros n Hn. unfold select_by_size_value.
    by rewrite (build_resolves requests ns n Hne Hb) by lia. }
  exists ns. eexists. eexists. split; [done|].
  split; [reflexivity|]. split; [reflexivity|].
  split; [|split].
  - apply (Hsel 2). lia.
  - apply (Hsel 1). lia.
  - apply (Hsel 0). lia.
Qed.

Lemma yes_no_always_resolved_witness :
  exists (ns : namespace) (yes no : ctype),
    build [Some 9; None; Some 12] = Ok ns /\
    yes_type = Some yes /\ no_type = Some no /\
    select_by_size_value ns (sizeof yes) = Some 1 /\
    select_by_size_value ns (sizeof no) = Some 0 /\
    select_by_size_value ns 1 = Some (-1).
Proof.
  apply (yes_no_always_resolved [Some 9; None; Some 12]);
    [discriminate|vm_compute; reflexivity].
Defined.

(** ** One invocation *)

(** X19. One accepted [SELECT_BY_SIZE_SPEC(n)] adds one specialization
    and one constant and disturbs nothing: afterwards
    [select_by_size< sizeof(case_<n - 1>) >::value] is [n - 1], every
    other size resolves as before, and every other constant of [detail]
    is as before. *)
Theorem SELECT_BY_SIZE_SPEC_adds_one (n : Z) (ns ns' : namespace) :
  SELECT_BY_SIZE_SPEC n ns = Ok ns' ->
  sizeof_case (n - 1) = Some (n + 1) /\
  select_by_size_value ns' (n + 1) = Some (n - 1) /\
  select_by_size ns (n + 1) = None /\
  (forall Size, to_unsigned Size <> to_unsigned (n + 1) ->
     select_by_size ns' Size = select_by_size ns Size) /\
  (forall m, m <> n -> detail ns' !! m = detail ns !! m).
Proof.
  intros (Hn & Hd & Hs & ->)%SELECT_BY_SIZE_SPEC_Ok.
  unfold select_by_size_value, select_by_size. cbn [specializations detail].
  split; [rewrite sizeof_case_eq by lia; f_equal; lia|].
  split; [by rewrite lookup_insert_eq|]. split; [done|]. split.
  - intros Size HSize. by rewrite lookup_insert_ne.
  - intros m Hm. by rewrite lookup_insert_ne.
Qed.

Lemma SELECT_BY_SIZE_SPEC_adds_one_witness :
  exists ns ns',
    compile [0; 1; 2] = Ok ns /\ SELECT_BY_SIZE_SPEC 3 ns = Ok ns' /\
    select_by_size_value ns' (3 + 1) = Some (3 - 1) /\
    select_by_size ns (3 + 1) = None.
Proof.
  eexists. eexists.
  split; [vm_compute; reflexivity|]. split; [vm_compute; reflexivity|].
  match goal with
  | |- select_by_size_value ?ns' _ = _ /\ select_by_size ?ns _ = _ =>
      assert (SELECT_BY_SIZE_SPEC 3 ns = Ok ns') as H
        by (vm_compute; reflexivity);
      destruct (SELECT_BY_SIZE_SPEC_adds_one 3 ns ns' H) as (_ & H1 & H2 & _)
  end.
  split; [exact H1|exact H2].
Defined.

(** ** The helper macro on tags *)

Lemma case_sizeof (N : Z) (t : ctype) :
  case_ N = Some t -> -1 <= N /\ sizeof t = N + 2.
Proof.
  intros Ht. assert (sizeof_case N = Some (sizeof t)) as Hs.
  { unfold sizeof_case. by rewrite Ht. }
  apply sizeof_case_Some in Hs. lia.
Qed.


(** X16. The documented use of the macro: a translation unit that
    includes the header builds (sizes fitting [unsigned]), and for an
    expression whose type is a tag [case_<N>] of the generated range,
    [BOOST_SELECT_BY_SIZE(type_, name, expr)] expands to the [unsigned]
    temporary holding [N + 2] and the constant [name] of type [type_] with
    value [N]. *)
Theorem BOOST_SELECT_BY_SIZE_on_generated_tag
    (requests : list (option Z)) (type_ name : string) (N : Z) :
  requests <> [] ->
  covered_bound requests + 2 < 2 ^ 32 ->
  -1 <= N <= covered_bound requests ->
  exists ns expr, build requests = Ok ns /\ case_ N = Some expr /\
    BOOST_SELECT_BY_SIZE ns type_ name expr =
    Some [BOOST_STATIC_CONSTANT "unsigned"
            (BOOST_PP_CAT "boost_select_by_size_temp_" name) (N + 2);
          BOOST_STATIC_CONSTANT type_ name N].
Proof.
  intros Hne Hc HN. destruct (build_Ok requests Hne Hc) as [ns Hb].
  destruct (case_ N) as [expr|] eqn:Hexpr.
  2: { assert (sizeof_case N = None) as Hs
         by (unfold sizeof_case; by rewrite Hexpr).
       by rewrite sizeof_case_eq in Hs by lia. }
  exists ns, expr. split; [done|]. split; [done|].
  apply case_sizeof in Hexpr as [_ Hsz].
  unfold BOOST_SELECT_BY_SIZE, select_by_size_value.
  cbn [BOOST_STATIC_CONSTANT c_value]. rewrite Hsz.
  replace (N + 2) with (N + 1 + 1) by lia.
  rewrite (build_resolves requests ns (N + 1) Hne Hb) by lia. cbn.
  by replace (N + 1 - 1) with N by lia.
Qed.

Lemma BOOST_SELECT_BY_SIZE_on_generated_tag_witness :
  exists ns expr, build [Some 7; Some 9] = Ok ns /\ case_ 4 = Some expr /\
    BOOST_SELECT_BY_SIZE ns "int" "value" expr =
    Some [BOOST_STATIC_CONSTANT "unsigned"
            (BOOST_PP_CAT "boost_select_by_size_temp_" "value") (4 + 2);
          BOOST_STATIC_CONSTANT "int" "value" 4].
Proof.
  apply (BOOST_SELECT_BY_SIZE_on_generated_tag [Some 7; Some 9] "int" "value" 4);
    [discriminate|vm_compute; reflexivity|vm_compute; split; discriminate].
Defined.

(** X17. The macro on a tag that was not generated: a translation unit
    that includes the header builds (sizes fitting [unsigned]), and for
    an expression whose type is a tag [case_<N>] above the generated
    range (as [case_<4>] after requests 3 and then 4), the expansion of
    [BOOST_SELECT_BY_SIZE] is ill-formed; no other specialization is
    picked up in its place. *)
Theorem BOOST_SELECT_BY_SIZE_on_missing_tag
    (requests : list (option Z)) (type_ name : string) (N : Z) (expr : ctype) :
  requests <> [] ->
  covered_bound requests + 2 < 2 ^ 32 ->
  case_ N = Some expr -> N + 2 < 2 ^ 32 ->
  covered_bound requests < N ->
  exists ns, build requests = Ok ns /\
             BOOST_SELECT_BY_SIZE ns type_ name expr = None.
Proof.
  intros Hne Hc [HN Hsz]%case_sizeof HN32 Hout.
  destruct (build_Ok requests Hne Hc) as [ns Hb].
  exists ns. split; [done|].
  unfold BOOST_SELECT_BY_SIZE, select_by_size_value.
  cbn [BOOST_STATIC_CONSTANT c_value]. rewrite Hsz.
  destruct (select_by_size ns (N + 2)) as [s|] eqn:Hs; [|done].
  exfalso.
  assert (is_Some (select_by_size ns (N + 2))) as Hsome by (by rewrite Hs).
  apply (build_defined requests ns (N + 2) Hne Hb Hc) in Hsome
    as (n & Hn & HSize).
  rewrite to_unsigned_small in HSize by lia. lia.
Qed.

Lemma BOOST_SELECT_BY_SIZE_on_missing_tag_witness :
  exists ns expr, case_ 4 = Some expr /\ build [Some 3; Some 4] = Ok ns /\
    BOOST_SELECT_BY_SIZE ns "int" "value" expr = None.
Proof.
  destruct (case_ 4) as [expr|] eqn:Hexpr; [|vm_compute in Hexpr; discriminate].
  destruct (BOOST_SELECT_BY_SIZE_on_missing_tag
              [Some 3; Some 4] "int" "value" 4 expr) as (ns & Hb & Hm).
  - discriminate.
  - vm_compute. reflexivity.
  - exact Hexpr.
  - lia.
  - vm_compute. reflexivity.
  - exists ns, expr. split; [reflexivity|]. split; [exact Hb|exact Hm].
Defined.

(** X18. Two uses of the macro in one class: the four names the two
    expansions declare are distinct exactly when the two names differ and
    neither is the name of the other's temporary. In particular two
    different names never share a temporary, and the same name twice
    always clashes. *)
Theorem BOOST_SELECT_BY_SIZE_twice
    (ns : namespace) (type1 name1 type2 name2 : string) (expr1 expr2 : ctype)
    (scope1 scope2 : list static_constant) :
  BOOST_SELECT_BY_SIZE ns type1 name1 expr1 = Some scope1 ->
  BOOST_SELECT_BY_SIZE ns type2 name2 expr2 = Some scope2 ->
  NoDup (c_name <$> scope1 ++ scope2) <->
  name1 <> name2 /\
  name1 <> BOOST_PP_CAT "boost_select_by_size_temp_" name2 /\
  name2 <> BOOST_PP_CAT "boost_select_by_size_temp_" name1.
Proof.
  unfold BOOST_SELECT_BY_SIZE. cbn [BOOST_STATIC_CONSTANT c_value].
  destruct (select_by_size_value ns (sizeof expr1)) as [v1|]; [|done].
  destruct (select_by_size_value ns (sizeof expr2)) as [v2|]; [|done].
  intros [= <-] [= <-]. unfold BOOST_STATIC_CONSTANT.
  cbn [fmap list_fmap app c_name].
  pose proof (temp_name_fresh name1) as Hf1.
  pose proof (temp_name_fresh name2) as Hf2.
  assert (BOOST_PP_CAT "boost_select_by_size_temp_" name1 =
          BOOST_PP_CAT "boost_select_by_size_temp_" name2 <-> name1 = name2)
    as Hinj.
  { split; [|by intros ->]. unfold BOOST_PP_CAT. apply (inj _). }
  rewrite !NoDup_cons, !elem_of_cons, !elem_of_nil, NoDup_nil.
  split.
  - intros (H1 & H2 & H3 & _). split; [|split].
    + intros Heq. apply H2. by right; left.
    + intros Heq. apply H2. by left.
    + intros Heq. apply H1. by right; right; left.
  - intros (Hn & H12 & H21). split; [|split; [|split; [|split]]].
    + intros [?|[?%Hinj|[?|[]]]]; [by apply Hf1|done|by apply H21].
    + intros [?|[?|[]]]; done.
    + intros [?|[]]. by apply Hf2.
    + intros [].
    + done.
Qed.

Lemma BOOST_SELECT_BY_SIZE_twice_witness :
  exists ns expr scope1 scope2,
    build [None] = Ok ns /\ yes_type = Some expr /\
    BOOST_SELECT_BY_SIZE ns "int" "a" expr = Some scope1 /\
    BOOST_SELECT_BY_SIZE ns "bool" "b" expr = Some scope2 /\
    NoDup (c_name <$> scope1 ++ scope2).
Proof.
  let built := eval vm_compute in (build [None]) in
  let yes := eval vm_compute in yes_type in
  lazymatch constr:((built, yes)) with
  | (Ok ?ns, Some ?expr) =>
      let m1 := eval vm_compute in (BOOST_SELECT_BY_SIZE ns "int" "a" expr) in
      let m2 := eval vm_compute in (BOOST_SELECT_BY_SIZE ns "bool" "b" expr) in
      lazymatch constr:((m1, m2)) with
      | (Some ?scope1, Some ?scope2) =>
          assert (BOOST_SELECT_BY_SIZE ns "int" "a" expr = Some scope1) as H1
            by (vm_compute; reflexivity);
          assert (BOOST_SELECT_BY_SIZE ns "bool" "b" expr = Some scope2) as H2
            by (vm_compute; reflexivity);
          exists ns, expr, scope1, scope2;
          split; [vm_compute; reflexivity|];
          split; [reflexivity|];
          split; [exact H1|]; split; [exact H2|];
          apply (BOOST_SELECT_BY_SIZE_twice ns "int" "a" "bool" "b" expr expr
                   scope1 scope2 H1 H2)
      end
  end.
  repeat split; apply (bool_decide_unpack _); vm_compute; exact I.
Defined.
